(** * pyspark-style-guide: the pylint checkers, embedded and verified

    [src/checkers/pyspark_function_aliases.py] is embedded as it is written:
    the module global [ALIASES] is a dict living in a mutable store, the
    checker instance owns a [_function_stack] list, and [visit_call] runs in
    a small state-and-exception monad because Python attribute access can
    raise.  The host (pylint / astroid) is not part of the repository; the
    few operations of it that the checker calls are modelled separately and
    marked as such. *)

From stdpp Require Import gmap strings list fin_maps.

Open Scope string_scope.
Open Scope list_scope.
Open Scope Z_scope.

(** ** astroid syntax nodes (the part of them the checkers look at) *)

Module Astroid.

(** [lineno], [col_offset], [end_lineno], [end_col_offset] of a node. *)
Record position := Position {
  lineno : Z;
  col_offset : Z;
  end_lineno : Z;
  end_col_offset : Z
}.

(** The value carried by a [Const] node.  Equality is by kind and value:
    the integer [5] and the string ["5"] are different literals. *)
Inductive literal :=
| LInt (z : Z)
| LStr (s : string)
| LBool (b : bool)
| LNone.

#[warnings="-register-all"]
Inductive node :=
| Name (p : position) (name : string)
| Const (p : position) (value : literal)
| Attribute (p : position) (expr : node) (attrname : string)
| Subscript (p : position) (value slice : node)
| Lambda (p : position) (body : node)
| Call (p : position) (func : node) (args : list node)
| Expr (p : position) (value : node)
| Return (p : position) (value : option node)
| If (p : position) (test : node) (body orelse : list node)
| FunctionDef (p : position) (name : string) (body : list node).

Definition pos (n : node) : position :=
  match n with
  | Name p _ | Const p _ | Attribute p _ _ | Subscript p _ _
  | Lambda p _ | Call p _ _ | Expr p _ | Return p _
  | If p _ _ _ | FunctionDef p _ _ => p
  end.

(** The Python class name of a node, as it appears in an
    [AttributeError] message. *)
Definition class_name (n : node) : string :=
  match n with
  | Name _ _ => "Name"
  | Const _ _ => "Const"
  | Attribute _ _ _ => "Attribute"
  | Subscript _ _ _ => "Subscript"
  | Lambda _ _ => "Lambda"
  | Call _ _ _ => "Call"
  | Expr _ _ => "Expr"
  | Return _ _ => "Return"
  | If _ _ _ _ => "If"
  | FunctionDef _ _ _ => "FunctionDef"
  end.

End Astroid.
Export Astroid.

(** ** Python exceptions and the checker monad *)

Inductive exn :=
| AttributeError (cls attr : string)
| UnknownMessageError (msgid : string).

Inductive result (A : Type) :=
| Returned (a : A)
| Raised (e : exn).
Arguments Returned {A} a.
Arguments Raised {A} e.

(** ** The host's diagnostic sink *)

Module Pylint.

(** Modelled from the spec: the diagnostic record handed to the host
    (pylint's message object is not part of the repository).  It holds the
    rule's symbolic identifier, its one-line summary and
    rationale, the source position of the triggering node and the node
    itself. *)
Record Diagnostic := mkDiagnostic {
  symbol : string;
  summary : string;
  rationale : string;
  line : Z;
  column : Z;
  end_line : Z;
  end_column : Z;
  at_node : node
}.

(** One entry of a checker's [msgs] dict:
    [msgid: (summary, symbol, rationale)]. *)
Record MessageDefinition := mkMessageDefinition {
  def_msgid : string;
  def_summary : string;
  def_symbol : string;
  def_rationale : string
}.

(** Modelled from the spec: the host resolves the identifier given to
    [add_message] against the checker's declared messages, by message id or
    by symbol. *)
Fixpoint get_message_definition (msgs : list MessageDefinition) (id : string)
  : option MessageDefinition :=
  match msgs with
  | [] => None
  | d :: rest =>
      if bool_decide (def_msgid d = id) || bool_decide (def_symbol d = id)
      then Some d
      else get_message_definition rest id
  end.

Definition make_diagnostic (d : MessageDefinition) (n : node) : Diagnostic :=
  {| symbol := def_symbol d;
     summary := def_summary d;
     rationale := def_rationale d;
     line := lineno (pos n);
     column := col_offset (pos n);
     end_line := end_lineno (pos n);
     end_column := end_col_offset (pos n);
     at_node := n |}.

End Pylint.
Export Pylint.

(** ** src/checkers/pyspark_function_aliases.py *)

(** Everything the module's code can read or write: the module global
    [ALIASES] (a dict, hence mutable), the one instance attribute
    [self._function_stack], the checkers registered with the linter and the
    diagnostics the linter has received so far, oldest first. *)
Record World := mkWorld {
  mod_ALIASES : gmap string string;
  _function_stack : list node;
  linter_checkers : list string;
  linter_messages : list Diagnostic
}.

Definition Py (A : Type) : Type := World → result A * World.

#[global] Instance Py_ret : MRet Py := λ A a w, (Returned a, w).

#[global] Instance Py_bind : MBind Py := λ A B k m w,
  match m w with
  | (Returned a, w') => k a w'
  | (Raised e, w') => (Raised e, w')
  end.

Definition raise {A} (e : exn) : Py A := λ w, (Raised e, w).

(** [if c: body] with no [else]. *)
Definition when (c : bool) (body : Py unit) : Py unit :=
  if c then body else mret tt.

(** Attribute reads.  [node.func] exists on [Call] nodes only and
    [.attrname] on [Attribute] nodes only; on any other node Python raises
    [AttributeError]. *)
Definition get_func (n : node) : Py node :=
  match n with
  | Call _ func _ => mret func
  | _ => raise (AttributeError (class_name n) "func")
  end.

Definition get_attrname (n : node) : Py string :=
  match n with
  | Attribute _ _ attrname => mret attrname
  | _ => raise (AttributeError (class_name n) "attrname")
  end.

(** Reading the module global [ALIASES]. *)
Definition load_ALIASES : Py (gmap string string) :=
  λ w, (Returned (mod_ALIASES w), w).

(** [key in d] for a dict [d]. *)
Definition contains (d : gmap string string) (key : string) : bool :=
  bool_decide (is_Some (d !! key)).

Definition NAME : string := "pyspark-less-desirable-function-alias".

Definition ALIASES : gmap string string :=
  list_to_map
    [ ("filter", "where");
      ("groupBy", "groupby");
      ("dropDuplicates", "drop_duplicates");
      ("cast", "astype");
      ("name", "alias");
      ("avg", "mean");
      ("stddev_sample", "stddev");
      ("var_sample", "var") ].

(** The class attributes [name] and [msgs]. *)
Definition name : string := "pyspark-function-alias".

Definition msgs : list MessageDefinition :=
  [ {| def_msgid := "C3901";
       def_summary :=
         "Calls a less desirable alias for a common PySpark function.";
       def_symbol := NAME;
       def_rationale :=
         "PySpark functions should use the most Pythonic, specific, and concise names when other aliases exist." |} ].

(** Modelled from the spec: [self.add_message(id, node=node)] belongs to the
    host.  The identifier is resolved against [msgs] and the diagnostic is
    appended to the linter's messages; an identifier the checker never
    declared raises. *)
Definition add_message (id : string) (n : node) : Py unit :=
  λ w, match get_message_definition msgs id with
       | Some d =>
           (Returned tt,
            {| mod_ALIASES := mod_ALIASES w;
               _function_stack := _function_stack w;
               linter_checkers := linter_checkers w;
               linter_messages := linter_messages w ++ [make_diagnostic d n] |})
       | None => (Raised (UnknownMessageError id), w)
       end.

(** [PySparkFunctionAliasChecker.__init__]. *)
Definition __init__ : Py unit :=
  λ w, (Returned tt,
        {| mod_ALIASES := mod_ALIASES w;
           _function_stack := [];
           linter_checkers := linter_checkers w;
           linter_messages := linter_messages w |}).

(** Modelled from the spec: [linter.register_checker(checker)] belongs to
    the host, which adds the checker to its registry. *)
Definition register_checker (checker_name : string) : Py unit :=
  λ w, (Returned tt,
        {| mod_ALIASES := mod_ALIASES w;
           _function_stack := _function_stack w;
           linter_checkers := linter_checkers w ++ [checker_name];
           linter_messages := linter_messages w |}).

(** [register(linter)]. *)
Definition register : Py unit :=
  __init__ ;; register_checker name.

(** [PySparkFunctionAliasChecker.visit_call]:
<<
    if node.func.attrname in ALIASES:
        self.add_message(NAME, node=node)
>> *)
Definition visit_call (n : node) : Py unit :=
  func ← get_func n;
  attrname ← get_attrname func;
  aliases ← load_ALIASES;
  when (contains aliases attrname) (add_message NAME n).

(** The world right after the module has been imported. *)
Definition loaded : World :=
  {| mod_ALIASES := ALIASES;
     _function_stack := [];
     linter_checkers := [];
     linter_messages := [] |}.

(** The operations of the module that a host can run. *)
Inductive op :=
| OpRegister
| OpInit
| OpVisitCall (n : node).

Definition run_op (o : op) : Py unit :=
  match o with
  | OpRegister => register
  | OpInit => __init__
  | OpVisitCall n => visit_call n
  end.

(** Worlds the host can reach from the freshly imported module; an
    operation that raised still leaves its world behind. *)
Inductive reachable : World → Prop :=
| reachable_loaded : reachable loaded
| reachable_step w o : reachable w → reachable (run_op o w).2.

(** The diagnostics an operation added to the linter's messages. *)
Definition emitted {A} (m : Py A) (w : World) : list Diagnostic :=
  drop (length (linter_messages w)) (linter_messages (m w).2).

(** The outcome of an operation: what it returned or raised. *)
Definition outcome {A} (m : Py A) (w : World) : result A := (m w).1.

(** ** The unique-return checker

    Only the tests of [checker.UniqueReturnChecker] are at hand, not the
    checker itself; its operations follow the specification's section 4.2. *)

Module UniqueReturn.

#[global] Instance literal_eq_dec : EqDecision literal.
Proof. solve_decision. Defined.

Definition literal_to_sum (l : literal) : Z + string + bool + unit :=
  match l with
  | LInt z => inl (inl (inl z))
  | LStr s => inl (inl (inr s))
  | LBool b => inl (inr b)
  | LNone => inr tt
  end.

Definition sum_to_literal (x : Z + string + bool + unit) : literal :=
  match x with
  | inl (inl (inl z)) => LInt z
  | inl (inl (inr s)) => LStr s
  | inl (inr b) => LBool b
  | inr _ => LNone
  end.

#[global] Instance literal_countable : Countable literal :=
  inj_countable' literal_to_sum sum_to_literal
    (λ l, match l with
          | LInt _ | LStr _ | LBool _ | LNone => eq_refl
          end).

(** Modelled from the spec: the checker's state is the stack of
    literal-value sets, one per function currently open, innermost first;
    the host's sink is kept next to it. *)
Record State := mkState {
  scope_stack : list (gset literal);
  sink : list Diagnostic
}.

Definition NAME : string := "non-unique-returns".

(** Modelled from the spec: the rule's identifier and its message; the
    rationale is quoted from the specification's description of it. *)
Definition definition : MessageDefinition :=
  {| def_msgid := NAME;
     def_summary := "Non-unique return value within function.";
     def_symbol := NAME;
     def_rationale :=
       "returning the same literal from multiple paths of one function is likely redundant/dead logic" |}.

(** Modelled from the spec: the returned expression is a literal with a
    statically known value exactly when it is a constant; a bare [return]
    and a return of any other expression have none. *)
Definition literal_of (r : node) : option literal :=
  match r with
  | Return _ (Some (Const _ v)) => Some v
  | _ => None
  end.

(** Modelled from the spec: [enter_function] pushes a new empty set. *)
Definition enter_function (f : node) (st : State) : State :=
  {| scope_stack := ∅ :: scope_stack st; sink := sink st |}.

(** Modelled from the spec: [exit_function] pops the top set. *)
Definition exit_function (st : State) : State :=
  {| scope_stack := tail (scope_stack st); sink := sink st |}.

(** Modelled from the spec: [visit_return].  A return that is not a
    literal changes nothing; a literal already in the current function's
    set is reported at this return node; a new literal is inserted.  With
    no function open the rule does not apply. *)
Definition visit_return (r : node) (st : State) : State :=
  match literal_of r, scope_stack st with
  | Some v, top :: rest =>
      if bool_decide (v ∈ top)
      then {| scope_stack := scope_stack st;
              sink := sink st ++ [make_diagnostic definition r] |}
      else {| scope_stack := ({[ v ]} ∪ top) :: rest; sink := sink st |}
  | _, _ => st
  end.

(** Modelled from the spec: what the host's traversal hands to the
    checker, in document order. *)
Inductive callback :=
| Enter (f : node)
| Visit (r : node)
| Leave.

(** Modelled from the spec: the traversal is top to bottom and depth
    first; a function definition is entered, its body walked, and then
    left.  Expressions hold neither returns nor function definitions. *)
Fixpoint callbacks (n : node) : list callback :=
  match n with
  | FunctionDef _ _ body => Enter n :: flat_map callbacks body ++ [Leave]
  | Return _ _ => [Visit n]
  | If _ _ body orelse => flat_map callbacks body ++ flat_map callbacks orelse
  | _ => []
  end.

Definition step (c : callback) (st : State) : State :=
  match c with
  | Enter f => enter_function f st
  | Visit r => visit_return r st
  | Leave => exit_function st
  end.

Definition run (cs : list callback) (st : State) : State :=
  fold_left (λ s c, step c s) cs st.

(** The diagnostics a step added to the sink. *)
Definition emitted_by (f : State → State) (st : State) : list Diagnostic :=
  drop (length (sink st)) (sink (f st)).

(** [balanced d cs]: starting [d] functions deep inside the function under
    consideration, the callbacks [cs] never leave that function and end
    directly in it again. *)
Fixpoint balanced (d : nat) (cs : list callback) : bool :=
  match cs with
  | [] => bool_decide (d = 0%nat)
  | Enter _ :: cs' => balanced (S d) cs'
  | Visit _ :: cs' => balanced d cs'
  | Leave :: cs' =>
      match d with
      | O => false
      | S d' => balanced d' cs'
      end
  end.

(** The literal values returned so far by the function under
    consideration itself, not by the functions nested in it. *)
Fixpoint own_literals (d : nat) (cs : list callback) : gset literal :=
  match cs with
  | [] => ∅
  | Enter _ :: cs' => own_literals (S d) cs'
  | Visit r :: cs' =>
      match d, literal_of r with
      | O, Some v => {[ v ]} ∪ own_literals d cs'
      | _, _ => own_literals d cs'
      end
  | Leave :: cs' => own_literals (pred d) cs'
  end.

(** [returned_before v pre]: among the callbacks [pre] of a function's
    body there is a return of the literal [v] that belongs to the function
    itself: the callbacks before it end directly in the function. *)
Definition returned_before (v : literal) (pre : list callback) : Prop :=
  ∃ pre1 r' pre2,
    pre = pre1 ++ Visit r' :: pre2
    ∧ balanced 0 pre1 = true
    ∧ literal_of r' = Some v.

(** The function of the checker's tests,
<<
  def test():
      if True:
          return a
      return b
>>  with the two returned constants as parameters. *)
Definition return_a (a : Z) : node :=
  Return (Position 4 8 4 16) (Some (Const (Position 4 15 4 16) (LInt a))).

Definition return_b (b : Z) : node :=
  Return (Position 5 4 5 12) (Some (Const (Position 5 11 5 12) (LInt b))).

Definition test_body (a b : Z) : list node :=
  [ If (Position 3 4 4 16) (Const (Position 3 7 3 11) (LBool true))
       [return_a a] [];
    return_b b ].

Definition test_function (a b : Z) : node :=
  FunctionDef (Position 2 0 5 12) "test" (test_body a b).

(** The checker before any traversal: no function open, nothing
    reported. *)
Definition initial : State := {| scope_stack := []; sink := [] |}.

End UniqueReturn.

(** ** Vocabulary of the statements about the alias checker *)

(** The name a call invokes as a member, [m] in [obj.m(...)]; a call of
    anything else than an attribute, and a node that is no call, have
    none. *)
Definition invoked_member_name (n : node) : option string :=
  match n with
  | Call _ (Attribute _ _ attrname) _ => Some attrname
  | _ => None
  end.

(** The eight less desirable names, in the order the table lists them. *)
Definition alias_keys : list string :=
  [ "filter"; "groupBy"; "dropDuplicates"; "cast"; "name"; "avg";
    "stddev_sample"; "var_sample" ].

(** The one message the checker declares. *)
Definition alias_definition : MessageDefinition :=
  {| def_msgid := "C3901";
     def_summary :=
       "Calls a less desirable alias for a common PySpark function.";
     def_symbol := "pyspark-less-desirable-function-alias";
     def_rationale :=
       "PySpark functions should use the most Pythonic, specific, and concise names when other aliases exist." |}.

(** The world [add_message NAME] leaves behind. *)
Definition reported (n : node) (w : World) : World :=
  {| mod_ALIASES := mod_ALIASES w;
     _function_stack := _function_stack w;
     linter_checkers := linter_checkers w;
     linter_messages :=
       linter_messages w ++ [make_diagnostic alias_definition n] |}.

(** ASCII lower-casing, the usual normalisation a matcher could apply. *)
Definition lower_ascii (c : Ascii.ascii) : Ascii.ascii :=
  let k := Ascii.nat_of_ascii c in
  if ((65 <=? k) && (k <=? 90))%nat then Ascii.ascii_of_nat (k + 32) else c.

Fixpoint lower (s : string) : string :=
  match s with
  | EmptyString => EmptyString
  | String c s' => String (lower_ascii c) (lower s')
  end.

(** [obj.member()] written at line [l], columns [c] to [c + width]. *)
Definition method_call (l c : Z) (obj member : string) : node :=
  let olen := Z.of_nat (String.length obj) in
  let mlen := Z.of_nat (String.length member) in
  Call (Position l c l (c + olen + 1 + mlen + 2))
       (Attribute (Position l c l (c + olen + 1 + mlen))
                  (Name (Position l c l (c + olen)) obj) member)
       [].

(** The four calls of the test module, [df.filter()], [df.groupBy()],
    [df.where()] and [df.groupby()], on lines 3 to 6. *)
Definition df_filter : node := method_call 3 4 "df" "filter".
Definition df_groupBy : node := method_call 4 4 "df" "groupBy".
Definition df_where : node := method_call 5 4 "df" "where".
Definition df_groupby : node := method_call 6 4 "df" "groupby".

(** [f()], a call of a bare function, and [make()()], a call of a
    callable that is itself computed by a call. *)
Definition bare_call : node :=
  Call (Position 1 0 1 3) (Name (Position 1 0 1 1) "f") [].

Definition computed_call : node :=
  Call (Position 1 0 1 8)
       (Call (Position 1 0 1 6) (Name (Position 1 0 1 4) "make") []) [].

(** [for x in xs: body(x)]: the iterations run in order and the loop ends
    at the first one that raises. *)
Fixpoint for_each {A} (xs : list A) (body : A → Py unit) : Py unit :=
  match xs with
  | [] => mret tt
  | x :: xs' => body x ;; for_each xs' body
  end.

(** The loop of the checker's test,
<<
    for node in nodes:
        self.checker.visit_call(node)
>> *)
Definition visit_calls (nodes : list node) : Py unit :=
  for_each nodes visit_call.

(** A call of a member whose name is one of the eight aliases. *)
Definition is_alias_call (n : node) : bool :=
  match invoked_member_name n with
  | Some a => bool_decide (a ∈ alias_keys)
  | None => false
  end.

(** The exception Python raises while evaluating [node.func.attrname] on a
    node without an invoked member name: the first attribute read that
    fails names the class of the object it was tried on. *)
Definition missing_attribute (n : node) : exn :=
  match n with
  | Call _ func _ => AttributeError (class_name func) "attrname"
  | _ => AttributeError (class_name n) "func"
  end.

(** The entries of the [ALIASES] dict literal, as written. *)
Definition alias_items : list (string * string) :=
  [ ("filter", "where"); ("groupBy", "groupby");
    ("dropDuplicates", "drop_duplicates"); ("cast", "astype");
    ("name", "alias"); ("avg", "mean"); ("stddev_sample", "stddev");
    ("var_sample", "var") ].

(** * Properties of the alias checker *)

Section AliasChecker.

Implicit Types (w : World) (n : node) (a : string) (d : Diagnostic).

Lemma add_message_NAME n w :
  add_message NAME n w = (Returned tt, reported n w).
Proof. reflexivity. Qed.

Lemma visit_call_member n a w :
  invoked_member_name n = Some a →
  visit_call n w =
    if contains (mod_ALIASES w) a then (Returned tt, reported n w)
    else (Returned tt, w).
Proof.
  destruct n as [| | | | |p f args| | | |]; try discriminate.
  destruct f; try discriminate.
  intros [= ->]. unfold visit_call. cbn.
  unfold mbind, Py_bind. cbn.
  destruct (contains _ _); reflexivity.
Qed.

Lemma visit_call_no_member n :
  invoked_member_name n = None →
  ∃ cls attr, ∀ w, visit_call n w = (Raised (AttributeError cls attr), w).
Proof.
  destruct n as [| | | | |p f args| | | |]; try (intros _; by eexists _, _).
  destruct f; try discriminate; intros _; by eexists _, _.
Qed.

(** The three ways a visit can go. *)
Lemma visit_call_cases n w :
  visit_call n w = (Returned tt, w)
  ∨ visit_call n w = (Returned tt, reported n w)
  ∨ ∃ e, visit_call n w = (Raised e, w).
Proof.
  destruct (invoked_member_name n) as [a|] eqn:Hn.
  - rewrite (visit_call_member n a w Hn).
    destruct (contains _ _); auto.
  - destruct (visit_call_no_member n Hn) as (cls & attr & H).
    rewrite H. eauto.
Qed.

Lemma emitted_reported n w :
  drop (length (linter_messages w)) (linter_messages (reported n w))
  = [make_diagnostic alias_definition n].
Proof. cbn. apply drop_app_length. Qed.

Lemma emitted_nothing w :
  drop (length (linter_messages w)) (linter_messages w) = [].
Proof. apply drop_all. Qed.

(** A visit emits nothing or the one diagnostic of the rule, at its node. *)
Lemma emitted_cases n w :
  emitted (visit_call n) w = []
  ∨ emitted (visit_call n) w = [make_diagnostic alias_definition n].
Proof.
  unfold emitted.
  destruct (visit_call_cases n w) as [-> | [-> | [e ->]]]; cbn [snd];
    rewrite ?emitted_nothing, ?emitted_reported; auto.
Qed.

(** The linter's messages only grow, by what the visit emitted. *)
Lemma visit_call_appends n w :
  linter_messages (visit_call n w).2
  = linter_messages w ++ emitted (visit_call n) w.
Proof.
  unfold emitted.
  destruct (visit_call_cases n w) as [-> | [-> | [e ->]]]; cbn [snd];
    rewrite ?emitted_nothing, ?emitted_reported, ?app_nil_r; reflexivity.
Qed.

Lemma visit_call_ALIASES n w :
  mod_ALIASES (visit_call n w).2 = mod_ALIASES w.
Proof.
  destruct (visit_call_cases n w) as [-> | [-> | [e ->]]]; reflexivity.
Qed.

Lemma visit_call_function_stack n w :
  _function_stack (visit_call n w).2 = _function_stack w.
Proof.
  destruct (visit_call_cases n w) as [-> | [-> | [e ->]]]; reflexivity.
Qed.

Lemma visit_call_checkers n w :
  linter_checkers (visit_call n w).2 = linter_checkers w.
Proof.
  destruct (visit_call_cases n w) as [-> | [-> | [e ->]]]; reflexivity.
Qed.

Lemma run_op_ALIASES (o : op) w :
  mod_ALIASES (run_op o w).2 = mod_ALIASES w.
Proof.
  destruct o; [reflexivity | reflexivity | apply visit_call_ALIASES].
Qed.

(** The table every reachable world holds is the one of the source. *)
Lemma reachable_ALIASES w : reachable w → mod_ALIASES w = ALIASES.
Proof.
  induction 1 as [|w o _ IH]; [reflexivity|].
  by rewrite run_op_ALIASES.
Qed.

Lemma dom_ALIASES : dom ALIASES = list_to_set alias_keys.
Proof. unfold ALIASES. rewrite dom_list_to_map_L. reflexivity. Qed.

Lemma contains_ALIASES a :
  contains ALIASES a = true ↔ a ∈ alias_keys.
Proof.
  unfold contains. rewrite bool_decide_eq_true, <- elem_of_dom, dom_ALIASES.
  apply elem_of_list_to_set.
Qed.

Lemma contains_ALIASES_false a :
  contains ALIASES a = false ↔ a ∉ alias_keys.
Proof.
  rewrite <- contains_ALIASES. destruct (contains ALIASES a); naive_solver.
Qed.

End AliasChecker.

(** * The claims about the alias checker *)

(** C1. In every world the host can reach, a call whose invoked member name
    is one of the eight keys [filter], [groupBy], [dropDuplicates], [cast],
    [name], [avg], [stddev_sample], [var_sample] makes [visit_call] return
    normally and emit exactly one diagnostic, which references that call
    node; a call whose invoked member name is any other string makes it
    emit none. *)
Theorem visit_call_emits_iff_alias (w : World) (n : node) (a : string) :
  reachable w →
  invoked_member_name n = Some a →
  (a ∈ [ "filter"; "groupBy"; "dropDuplicates"; "cast"; "name"; "avg";
         "stddev_sample"; "var_sample" ] →
     outcome (visit_call n) w = Returned tt
     ∧ ∃ d, emitted (visit_call n) w = [d] ∧ at_node d = n)
  ∧ (a ∉ [ "filter"; "groupBy"; "dropDuplicates"; "cast"; "name"; "avg";
           "stddev_sample"; "var_sample" ] →
     outcome (visit_call n) w = Returned tt
     ∧ emitted (visit_call n) w = []).
Proof.
  intros Hw Hn. fold alias_keys.
  unfold outcome, emitted. rewrite (visit_call_member n a w Hn).
  rewrite (reachable_ALIASES w Hw).
  split; intros Ha.
  - apply contains_ALIASES in Ha. rewrite Ha. cbn [fst snd].
    rewrite emitted_reported. split; [reflexivity|]. by eexists.
  - apply contains_ALIASES_false in Ha. rewrite Ha. cbn [fst snd].
    by rewrite emitted_nothing.
Qed.

Lemma visit_call_emits_iff_alias_witness :
  reachable loaded
  ∧ invoked_member_name df_filter = Some "filter"
  ∧ ∃ d, emitted (visit_call df_filter) loaded = [d] ∧ at_node d = df_filter.
Proof.
  split; [constructor|]. split; [reflexivity|].
  apply (visit_call_emits_iff_alias loaded df_filter "filter");
    [constructor | reflexivity | constructor].
Defined.

(** C2 (the code departs from the claim).  On [f()] the callee is a [Name]
    and on [make()()] it is a [Call]; neither has an [attrname], and
    [visit_call] raises [AttributeError] instead of emitting nothing. *)
Theorem visit_call_without_member_name_raises :
  invoked_member_name bare_call = None
  ∧ outcome (visit_call bare_call) loaded
    = Raised (AttributeError "Name" "attrname")
  ∧ invoked_member_name computed_call = None
  ∧ outcome (visit_call computed_call) loaded
    = Raised (AttributeError "Call" "attrname").
Proof. repeat split. Qed.

(** C3 (as the code has it).  Every diagnostic of the alias checker carries
    the summary and the rationale that [msgs] declares: "Calls a less
    desirable alias for a common PySpark function." and "PySpark functions
    should use the most Pythonic, specific, and concise names when other
    aliases exist." *)
Theorem alias_diagnostic_text (w : World) (n : node) (d : Diagnostic) :
  d ∈ emitted (visit_call n) w →
  summary d = "Calls a less desirable alias for a common PySpark function."
  ∧ rationale d =
      "PySpark functions should use the most Pythonic, specific, and concise names when other aliases exist.".
Proof.
  destruct (emitted_cases n w) as [-> | ->].
  - intros H. by apply elem_of_nil in H.
  - intros H. apply list_elem_of_singleton in H. subst d. split; reflexivity.
Qed.

Lemma alias_diagnostic_text_witness :
  make_diagnostic alias_definition df_filter
    ∈ emitted (visit_call df_filter) loaded
  ∧ summary (make_diagnostic alias_definition df_filter)
    = "Calls a less desirable alias for a common PySpark function.".
Proof.
  assert (H : make_diagnostic alias_definition df_filter
                ∈ emitted (visit_call df_filter) loaded) by constructor.
  split; [exact H|].
  exact (proj1 (alias_diagnostic_text loaded df_filter _ H)).
Defined.

(** C3 as the specification words it fails: the diagnostic emitted for
    [df.filter()] carries neither the summary "Calls a less desirable alias
    for a common function." nor the rationale "Functions should use the most
    idiomatic, specific, and concise names when other aliases exist." *)
Lemma alias_diagnostic_text_not_generic :
  ∃ d, d ∈ emitted (visit_call df_filter) loaded
       ∧ summary d ≠ "Calls a less desirable alias for a common function."
       ∧ rationale d ≠
           "Functions should use the most idiomatic, specific, and concise names when other aliases exist.".
Proof.
  exists (make_diagnostic alias_definition df_filter).
  split; [constructor|]. split; discriminate.
Qed.

(** C4. Matching is by string equality alone: in every reachable world a
    call whose invoked member name is different from each of the eight keys
    makes [visit_call] emit nothing, however close the name is to a key (a
    different case such as [Filter], a prefix, an extension). *)
Theorem alias_match_is_exact (w : World) (n : node) (a : string) :
  reachable w →
  invoked_member_name n = Some a →
  (∀ k, k ∈ alias_keys → a ≠ k) →
  outcome (visit_call n) w = Returned tt
  ∧ emitted (visit_call n) w = [].
Proof.
  intros Hw Hn Hne.
  unfold outcome, emitted. rewrite (visit_call_member n a w Hn).
  rewrite (reachable_ALIASES w Hw).
  assert (Ha : contains ALIASES a = false).
  { apply contains_ALIASES_false. intros Hin. by apply (Hne a). }
  rewrite Ha. cbn [fst snd]. by rewrite emitted_nothing.
Qed.

Lemma alias_match_is_exact_witness :
  lower "Filter" = lower "filter"
  ∧ emitted (visit_call (method_call 3 4 "df" "Filter")) loaded = [].
Proof.
  split; [reflexivity|].
  apply (alias_match_is_exact loaded (method_call 3 4 "df" "Filter") "Filter");
    [constructor | reflexivity | ].
  intros k Hk.
  repeat (apply elem_of_cons in Hk as [-> | Hk]; [discriminate|]).
  by apply elem_of_nil in Hk.
Defined.

(** Names that come close to a key without being one: another case, a
    prefix, an extension, the preferred name itself. *)
Example near_misses_emit_nothing :
  Forall (λ a, emitted (visit_call (method_call 1 0 "df" a)) loaded = [])
         [ "Filter"; "FILTER"; "filt"; "filters"; "groupby"; "where";
           "select"; "" ].
Proof. repeat constructor. Qed.

(** C5. Every diagnostic of the alias checker carries the rule identifier
    [pyspark-less-desirable-function-alias], the value of [NAME]. *)
Theorem alias_diagnostic_symbol (w : World) (n : node) (d : Diagnostic) :
  d ∈ emitted (visit_call n) w →
  symbol d = "pyspark-less-desirable-function-alias" ∧ symbol d = NAME.
Proof.
  destruct (emitted_cases n w) as [-> | ->].
  - intros H. by apply elem_of_nil in H.
  - intros H. apply list_elem_of_singleton in H. subst d. split; reflexivity.
Qed.

Lemma alias_diagnostic_symbol_witness :
  make_diagnostic alias_definition df_groupBy
    ∈ emitted (visit_call df_groupBy) loaded
  ∧ symbol (make_diagnostic alias_definition df_groupBy)
    = "pyspark-less-desirable-function-alias".
Proof.
  assert (H : make_diagnostic alias_definition df_groupBy
                ∈ emitted (visit_call df_groupBy) loaded) by constructor.
  split; [exact H|].
  exact (proj1 (alias_diagnostic_symbol loaded df_groupBy _ H)).
Defined.

Lemma visit_call_alias (n : node) (a : string) (w : World) :
  mod_ALIASES w = ALIASES →
  invoked_member_name n = Some a →
  contains ALIASES a = true →
  visit_call n w = (Returned tt, reported n w).
Proof.
  intros Hw Hn Ha. by rewrite (visit_call_member n a w Hn), Hw, Ha.
Qed.

Lemma visit_call_other (n : node) (a : string) (w : World) :
  mod_ALIASES w = ALIASES →
  invoked_member_name n = Some a →
  contains ALIASES a = false →
  visit_call n w = (Returned tt, w).
Proof.
  intros Hw Hn Ha. by rewrite (visit_call_member n a w Hn), Hw, Ha.
Qed.

(** C6. Visiting [df.filter()], [df.groupBy()], [df.where()] and
    [df.groupby()] in this order, from any reachable world: the first visit
    emits one diagnostic, at the first call (line 3, columns 4 to 15), the
    second one diagnostic, at the second call (line 4, columns 4 to 16), the
    third and the fourth none; the linter has received these two diagnostics
    and no other. *)
Theorem alias_scenario (w : World) :
  reachable w →
  let w1 := (visit_call df_filter w).2 in
  let w2 := (visit_call df_groupBy w1).2 in
  let w3 := (visit_call df_where w2).2 in
  let w4 := (visit_call df_groupby w3).2 in
  let d1 := mkDiagnostic NAME (def_summary alias_definition)
              (def_rationale alias_definition) 3 4 3 15 df_filter in
  let d2 := mkDiagnostic NAME (def_summary alias_definition)
              (def_rationale alias_definition) 4 4 4 16 df_groupBy in
  emitted (visit_call df_filter) w = [d1]
  ∧ emitted (visit_call df_groupBy) w1 = [d2]
  ∧ emitted (visit_call df_where) w2 = []
  ∧ emitted (visit_call df_groupby) w3 = []
  ∧ linter_messages w4 = linter_messages w ++ [d1; d2].
Proof.
  intros Hw. apply reachable_ALIASES in Hw.
  assert (E1 : visit_call df_filter w = (Returned tt, reported df_filter w))
    by (by apply (visit_call_alias _ "filter")).
  set (w1 := reported df_filter w).
  assert (E2 : visit_call df_groupBy w1 = (Returned tt, reported df_groupBy w1))
    by (by apply (visit_call_alias _ "groupBy")).
  set (w2 := reported df_groupBy w1).
  assert (E3 : visit_call df_where w2 = (Returned tt, w2))
    by (by apply (visit_call_other _ "where")).
  assert (E4 : visit_call df_groupby w2 = (Returned tt, w2))
    by (by apply (visit_call_other _ "groupby")).
  cbv zeta. unfold emitted.
  rewrite E1. cbn [snd]. fold w1. rewrite E2. cbn [snd]. fold w2.
  rewrite E3. cbn [snd]. rewrite E4. cbn [snd].
  rewrite emitted_nothing. subst w2. rewrite emitted_reported.
  subst w1. rewrite emitted_reported.
  repeat split. cbn. by rewrite <- app_assoc.
Qed.

Lemma alias_scenario_witness :
  reachable loaded
  ∧ emitted (visit_call df_where) (visit_call df_groupBy
        (visit_call df_filter loaded).2).2 = [].
Proof.
  split; [constructor|].
  exact (proj1 (proj2 (proj2 (alias_scenario loaded reachable_loaded)))).
Defined.

(** C8. No operation of the alias checker changes the module's [ALIASES]
    table: registration, construction and every [visit_call], whether it
    returns or raises, leave it as it was. *)
Theorem ALIASES_never_changes (w : World) :
  mod_ALIASES (register w).2 = mod_ALIASES w
  ∧ mod_ALIASES (__init__ w).2 = mod_ALIASES w
  ∧ ∀ n, mod_ALIASES (visit_call n w).2 = mod_ALIASES w.
Proof.
  split; [reflexivity|]. split; [reflexivity|].
  intros n. apply visit_call_ALIASES.
Qed.

(** C9. What [visit_call] does is a function of the call node and the alias
    table alone: in two worlds with the same table it has the same outcome
    and emits the same diagnostics, and so does a second visit of the same
    node; its only effect is to append what it emitted to the linter's
    messages. *)
Theorem visit_call_pure (n : node) (w1 w2 : World) :
  mod_ALIASES w1 = mod_ALIASES w2 →
  outcome (visit_call n) w1 = outcome (visit_call n) w2
  ∧ emitted (visit_call n) w1 = emitted (visit_call n) w2
  ∧ emitted (visit_call n) (visit_call n w1).2 = emitted (visit_call n) w1
  ∧ mod_ALIASES (visit_call n w1).2 = mod_ALIASES w1
  ∧ _function_stack (visit_call n w1).2 = _function_stack w1
  ∧ linter_checkers (visit_call n w1).2 = linter_checkers w1
  ∧ linter_messages (visit_call n w1).2
    = linter_messages w1 ++ emitted (visit_call n) w1.
Proof.
  intros Heq.
  assert (Hsame : ∀ u v, mod_ALIASES u = mod_ALIASES v →
            outcome (visit_call n) u = outcome (visit_call n) v
            ∧ emitted (visit_call n) u = emitted (visit_call n) v).
  { intros u v Huv. unfold outcome, emitted.
    destruct (invoked_member_name n) as [a|] eqn:Hn.
    - rewrite !(visit_call_member n a _ Hn), Huv.
      destruct (contains _ _); cbn [fst snd];
        by rewrite ?emitted_nothing, ?emitted_reported.
    - destruct (visit_call_no_member n Hn) as (cls & attr & H).
      rewrite !H. cbn [fst snd]. by rewrite !emitted_nothing. }
  destruct (Hsame w1 w2 Heq) as [Ho He].
  destruct (Hsame (visit_call n w1).2 w1 (visit_call_ALIASES n w1)) as [_ He'].
  repeat split; auto using visit_call_ALIASES, visit_call_function_stack,
    visit_call_checkers, visit_call_appends.
Qed.

Lemma visit_call_pure_witness :
  let busy := {| mod_ALIASES := ALIASES;
                 _function_stack := [bare_call];
                 linter_checkers := [name];
                 linter_messages :=
                   [make_diagnostic alias_definition df_groupBy] |} in
  mod_ALIASES loaded = mod_ALIASES busy
  ∧ emitted (visit_call df_filter) loaded = emitted (visit_call df_filter) busy.
Proof.
  intros busy. split; [reflexivity|].
  exact (proj1 (proj2 (visit_call_pure df_filter loaded busy eq_refl))).
Defined.

(** C10. Construction sets [_function_stack] to the empty list, and no
    [visit_call] changes it, whether a diagnostic is emitted, none is, or
    the visit raises. *)
Theorem function_stack_untouched (w : World) :
  _function_stack (__init__ w).2 = []
  ∧ ∀ n, _function_stack (visit_call n w).2 = _function_stack w.
Proof.
  split; [reflexivity|]. intros n. apply visit_call_function_stack.
Qed.

(** * Properties of the unique-return checker *)

Module UniqueReturnFacts.
Import UniqueReturn.

#[local] Set Warnings "-clear-no-such-hyp".

Lemma run_cons (c : callback) (cs : list callback) (st : State) :
  run (c :: cs) st = run cs (step c st).
Proof. reflexivity. Qed.

Lemma run_app (cs1 cs2 : list callback) (st : State) :
  run (cs1 ++ cs2) st = run cs2 (run cs1 st).
Proof. apply fold_left_app. Qed.

(** Walking callbacks that stay inside the function under consideration
    changes only that function's set, which gains the literals the
    function itself returned; the sets of the enclosing functions below it
    are as they were, and those of the nested functions are gone. *)
Lemma run_scope_stack (cs : list callback) :
  ∀ (d : nat) (inner : list (gset literal)) (S0 : gset literal)
    (outer : list (gset literal)) (snk : list Diagnostic),
    length inner = d →
    balanced d cs = true →
    scope_stack (run cs (mkState (inner ++ S0 :: outer) snk))
    = (S0 ∪ own_literals d cs) :: outer.
Proof.
  induction cs as [|c cs IH]; intros d inner S0 outer snk Hlen Hbal.
  - cbn in Hbal. apply bool_decide_eq_true in Hbal. rewrite Hbal in Hlen.
    apply nil_length_inv in Hlen. subst inner. rewrite Hbal. cbn.
    f_equal. set_solver.
  - rewrite run_cons. destruct c as [f | r |].
    + cbn in Hbal. cbn [step enter_function scope_stack sink own_literals].
      apply (IH (S d) (∅ :: inner)); [cbn; lia | done].
    + cbn in Hbal. cbn [step own_literals]. unfold visit_return.
      cbn [scope_stack sink].
      destruct inner as [|top inner]; cbn in Hlen; subst d.
      * destruct (literal_of r) as [v|]; cbn [app].
        -- destruct (decide (v ∈ S0)) as [Hv|Hv].
           ++ rewrite (bool_decide_eq_true_2 _ Hv).
              pose proof (IH 0%nat [] S0 outer
                            (snk ++ [make_diagnostic definition r])
                            eq_refl Hbal) as E.
              cbn [app] in E. rewrite E. f_equal. set_solver.
           ++ rewrite (bool_decide_eq_false_2 _ Hv).
              pose proof (IH 0%nat [] ({[v]} ∪ S0) outer snk
                            eq_refl Hbal) as E.
              cbn [app] in E. rewrite E. f_equal. set_solver.
        -- apply (IH 0%nat []); done.
      * destruct (literal_of r) as [v|]; cbn [app].
        -- destruct (bool_decide (v ∈ top)).
           ++ apply (IH _ (top :: inner)); done.
           ++ apply (IH _ (({[v]} ∪ top) :: inner)); done.
        -- apply (IH _ (top :: inner)); done.
    + cbn in Hbal. destruct d as [|d]; [done|].
      destruct inner as [|top inner]; [done|].
      cbn [step exit_function scope_stack sink own_literals app tail pred].
      apply (IH d inner); [cbn in Hlen; lia | done].
Qed.

(** What a return visited with the set [S0] on top emits. *)
Lemma visit_return_emitted (r : node) (S0 : gset literal)
      (outer : list (gset literal)) (snk : list Diagnostic) :
  emitted_by (visit_return r) (mkState (S0 :: outer) snk)
  = match literal_of r with
    | Some v =>
        if bool_decide (v ∈ S0) then [make_diagnostic definition r] else []
    | None => []
    end.
Proof.
  unfold emitted_by, visit_return. cbn [scope_stack sink].
  destruct (literal_of r) as [v|].
  - destruct (bool_decide (v ∈ S0)); cbn [sink].
    + apply drop_app_length.
    + apply drop_all.
  - apply drop_all.
Qed.

(** The set [own_literals] computes holds exactly the literals returned
    before. *)
Lemma own_literals_spec (v : literal) (pre : list callback) :
  ∀ d, balanced d pre = true →
       v ∈ own_literals d pre
       ↔ ∃ pre1 r' pre2,
           pre = pre1 ++ Visit r' :: pre2
           ∧ balanced d pre1 = true
           ∧ literal_of r' = Some v.
Proof.
  induction pre as [|c pre IH]; intros d Hbal.
  - cbn. split; [set_solver|].
    intros (pre1 & r' & pre2 & E & _). by destruct pre1.
  - destruct c as [f | r |]; cbn in Hbal.
    + cbn [own_literals]. rewrite (IH (S d) Hbal). split.
      * intros (pre1 & r' & pre2 & -> & Hb & Hl).
        by exists (Enter f :: pre1), r', pre2.
      * intros (pre1 & r' & pre2 & E & Hb & Hl).
        destruct pre1 as [|c pre1]; [discriminate|].
        injection E as <- ->. by exists pre1, r', pre2.
    + assert (Hlater :
        v ∈ own_literals d pre →
        ∃ pre1 r' pre2, Visit r :: pre = pre1 ++ Visit r' :: pre2
                        ∧ balanced d pre1 = true ∧ literal_of r' = Some v).
      { rewrite (IH d Hbal). intros (pre1 & r' & pre2 & -> & Hb & Hl).
        by exists (Visit r :: pre1), r', pre2. }
      split.
      * cbn [own_literals].
        destruct d as [|d]; [destruct (literal_of r) as [v0|] eqn:Hr|];
          try exact Hlater.
        rewrite elem_of_union, elem_of_singleton.
        intros [-> | Hin]; [|by apply Hlater].
        by exists [], r, pre.
      * intros (pre1 & r' & pre2 & E & Hb & Hl).
        destruct pre1 as [|c pre1].
        -- injection E as Er _. subst r'. cbn in Hb.
           apply bool_decide_eq_true in Hb. subst d.
           cbn [own_literals]. rewrite Hl. set_solver.
        -- injection E as Ec Ep. subst c. cbn in Hb.
           assert (Hin : v ∈ own_literals d pre).
           { rewrite (IH d Hbal). by exists pre1, r', pre2. }
           cbn [own_literals].
           destruct d as [|d]; [destruct (literal_of r)|]; set_solver.
    + destruct d as [|d]; [done|].
      cbn [own_literals pred]. rewrite (IH d Hbal). split.
      * intros (pre1 & r' & pre2 & -> & Hb & Hl).
        by exists (Leave :: pre1), r', pre2.
      * intros (pre1 & r' & pre2 & E & Hb & Hl).
        destruct pre1 as [|c pre1]; [discriminate|].
        injection E as <- ->. by exists pre1, r', pre2.
Qed.

(** What the visit of a return that belongs to the function itself emits,
    after the function was entered and the callbacks [pre] walked. *)
Lemma visit_return_after (st : State) (f r : node) (pre : list callback) :
  balanced 0 pre = true →
  emitted_by (visit_return r) (run (Enter f :: pre) st)
  = match literal_of r with
    | Some v =>
        if bool_decide (v ∈ own_literals 0 pre)
        then [make_diagnostic definition r] else []
    | None => []
    end.
Proof.
  intros Hbal. destruct st as [outer snk].
  rewrite run_cons. cbn [step enter_function scope_stack sink].
  pose proof (run_scope_stack pre 0%nat [] ∅ outer snk eq_refl Hbal) as E.
  cbn [app] in E.
  destruct (run pre _) as [stack snk'] eqn:Hrun. cbn in E. subst stack.
  rewrite visit_return_emitted.
  destruct (literal_of r) as [v|]; [|done].
  by rewrite (left_id_L ∅ (∪)).
Qed.

(** The two tests of the checker: [return 5] twice reports the second
    return and leaves no function open; [return 1] then [return 5]
    reports nothing. *)
Example test_finds_non_unique_ints :
  run (callbacks (test_function 5 5)) initial
  = {| scope_stack := [];
       sink := [mkDiagnostic "non-unique-returns"
                  "Non-unique return value within function."
                  (def_rationale definition) 5 4 5 12 (return_b 5)] |}.
Proof. vm_compute. reflexivity. Qed.

Example test_ignores_unique_ints :
  run (callbacks (test_function 1 5)) initial = initial.
Proof. vm_compute. reflexivity. Qed.

(** C7. In a function whose body is walked in document order, take a
    return of a literal [v] that belongs to the function itself.  If the
    function has returned [v] before, the visit emits exactly one
    diagnostic, attached to this return; if this is the first return of
    [v], the visit emits none. *)
Theorem first_return_silent_later_flagged
    (st : State) (p : position) (nm : string) (body : list node)
    (pre post : list callback) (r : node) (v : literal) :
  flat_map callbacks body = pre ++ Visit r :: post →
  balanced 0 pre = true →
  literal_of r = Some v →
  let at_r := run (Enter (FunctionDef p nm body) :: pre) st in
  (returned_before v pre →
     ∃ d, emitted_by (visit_return r) at_r = [d]
          ∧ at_node d = r ∧ symbol d = "non-unique-returns")
  ∧ (¬ returned_before v pre → emitted_by (visit_return r) at_r = []).
Proof.
  intros _ Hbal Hr at_r. subst at_r.
  rewrite (visit_return_after _ _ _ _ Hbal), Hr.
  unfold returned_before. rewrite <- (own_literals_spec v pre 0%nat Hbal).
  split; intros Hv.
  - rewrite (bool_decide_eq_true_2 _ Hv). by eexists.
  - by rewrite (bool_decide_eq_false_2 _ Hv).
Qed.

Lemma first_return_silent_later_flagged_witness :
  flat_map callbacks (test_body 5 5)
    = [Visit (return_a 5)] ++ Visit (return_b 5) :: []
  ∧ returned_before (LInt 5) [Visit (return_a 5)]
  ∧ ∃ d, emitted_by (visit_return (return_b 5))
           (run [Enter (test_function 5 5); Visit (return_a 5)] initial)
         = [d]
         ∧ at_node d = return_b 5 ∧ symbol d = "non-unique-returns".
Proof.
  assert (Hbefore : returned_before (LInt 5) [Visit (return_a 5)])
    by (by exists [], (return_a 5), []).
  split; [reflexivity|]. split; [exact Hbefore|].
  exact (proj1 (first_return_silent_later_flagged initial
                  (Position 2 0 5 12) "test" (test_body 5 5)
                  [Visit (return_a 5)] [] (return_b 5) (LInt 5)
                  eq_refl eq_refl eq_refl) Hbefore).
Defined.

End UniqueReturnFacts.


(** * Further properties of the alias checker *)

Section AliasCheckerMore.

Implicit Types (w : World) (n : node) (a : string) (d : Diagnostic).

Lemma visit_call_raise n w :
  invoked_member_name n = None →
  visit_call n w = (Raised (missing_attribute n), w).
Proof.
  destruct n as [| | | | |p f args| | | |]; try (intros _; reflexivity).
  destruct f; try discriminate; intros _; reflexivity.
Qed.

Lemma contains_is_alias a : contains ALIASES a = bool_decide (a ∈ alias_keys).
Proof.
  destruct (contains ALIASES a) eqn:E.
  - apply contains_ALIASES in E. by rewrite bool_decide_eq_true_2.
  - apply contains_ALIASES_false in E. by rewrite bool_decide_eq_false_2.
Qed.

(** With the table of the source, a visit emits the rule's diagnostic at the
    node if the node is an alias call, and nothing otherwise. *)
Lemma emitted_is_alias_call n w :
  mod_ALIASES w = ALIASES →
  emitted (visit_call n) w
  = if is_alias_call n then [make_diagnostic alias_definition n] else [].
Proof.
  intros Hw. unfold emitted, is_alias_call.
  destruct (invoked_member_name n) as [a|] eqn:Hn.
  - rewrite (visit_call_member n a w Hn), Hw, contains_is_alias.
    destruct (bool_decide _); cbn [snd];
      by rewrite ?emitted_nothing, ?emitted_reported.
  - rewrite (visit_call_raise n w Hn). cbn [snd]. apply emitted_nothing.
Qed.

Lemma alias_items_lookup (k v : string) :
  ALIASES !! k = Some v ↔ (k, v) ∈ alias_items.
Proof.
  unfold ALIASES. fold alias_items. symmetry.
  apply elem_of_list_to_map. compute_done.
Qed.


(** X2. Following the advice silences the checker: for every entry of the
    table, a call of the preferred name is not reported. *)
Theorem preferred_name_not_reported w n (k v : string) :
  reachable w →
  ALIASES !! k = Some v →
  invoked_member_name n = Some v →
  outcome (visit_call n) w = Returned tt ∧ emitted (visit_call n) w = [].
Proof.
  intros Hw Hkv Hn. apply reachable_ALIASES in Hw.
  assert (Hv : contains ALIASES v = false).
  { rewrite contains_is_alias. apply bool_decide_eq_false_2.
    apply alias_items_lookup in Hkv. unfold alias_items in Hkv.
    repeat (apply elem_of_cons in Hkv as [[= -> ->] | Hkv];
            [compute_done|]).
    by apply elem_of_nil in Hkv. }
  unfold outcome, emitted.
  rewrite (visit_call_other n v w Hw Hn Hv). cbn [fst snd].
  by rewrite emitted_nothing.
Qed.

Lemma preferred_name_not_reported_witness :
  ALIASES !! "dropDuplicates" = Some "drop_duplicates"
  ∧ emitted (visit_call (method_call 7 4 "df" "drop_duplicates")) loaded = [].
Proof.
  split; [reflexivity|].
  apply (preferred_name_not_reported loaded
           (method_call 7 4 "df" "drop_duplicates")
           "dropDuplicates" "drop_duplicates");
    [constructor | reflexivity | reflexivity].
Defined.

Lemma NoDup_snd_inj {A B} (l : list (A * B)) (k1 k2 : A) (v : B) :
  NoDup (l.*2) → (k1, v) ∈ l → (k2, v) ∈ l → k1 = k2.
Proof.
  induction l as [|[k0 v0] l IH]; csimpl; intros Hnd H1 H2.
  - by apply elem_of_nil in H1.
  - apply NoDup_cons in Hnd as [Hnot Hnd].
    assert (Htail : ∀ k, (k, v0) ∈ l → False).
    { intros k Hk. apply Hnot. apply list_elem_of_fmap. by exists (k, v0). }
    apply elem_of_cons in H1 as [E1 | H1], H2 as [E2 | H2].
    + congruence.
    + injection E1 as -> ->. by destruct (Htail k2).
    + injection E2 as -> ->. by destruct (Htail k1).
    + by apply IH.
Qed.

(** X3. The dict literal writes no alias twice, so the table holds exactly
    the eight pairs written; and no two aliases share a preferred name. *)
Theorem ALIASES_entries (k1 k2 v : string) :
  (ALIASES !! k1 = Some v ↔ (k1, v) ∈ alias_items)
  ∧ size ALIASES = 8%nat
  ∧ (ALIASES !! k1 = Some v → ALIASES !! k2 = Some v → k1 = k2).
Proof.
  split; [apply alias_items_lookup|]. split; [reflexivity|].
  rewrite !alias_items_lookup.
  apply NoDup_snd_inj. compute_done.
Qed.

Lemma visit_calls_cons n (ns : list node) w :
  visit_calls (n :: ns) w
  = match visit_call n w with
    | (Returned _, w') => visit_calls ns w'
    | (Raised e, w') => (Raised e, w')
    end.
Proof. reflexivity. Qed.


(** A loop over calls that all invoke a member returns, and the linter
    gains the diagnostics of the alias calls among them, in order. *)
Lemma visit_calls_members (ns : list node) :
  ∀ w, mod_ALIASES w = ALIASES →
       Forall (λ n, is_Some (invoked_member_name n)) ns →
       (visit_calls ns w).1 = Returned tt
       ∧ mod_ALIASES (visit_calls ns w).2 = ALIASES
       ∧ linter_messages (visit_calls ns w).2
         = linter_messages w
           ++ (make_diagnostic alias_definition
                 <$> List.filter is_alias_call ns).
Proof.
  induction ns as [|n ns IH]; intros w Hw Hns.
  - cbn. by rewrite app_nil_r.
  - apply Forall_cons in Hns as [[a Hn] Hns].
    rewrite visit_calls_cons, (visit_call_member n a w Hn), Hw,
      contains_is_alias.
    assert (Hal : is_alias_call n = bool_decide (a ∈ alias_keys))
      by (unfold is_alias_call; by rewrite Hn).
    cbn [List.filter]. rewrite Hal.
    destruct (bool_decide (a ∈ alias_keys)).
    + destruct (IH (reported n w) Hw Hns) as (Ho & Ht & Hm).
      rewrite Ho, Ht, Hm. cbn [reported linter_messages fmap list_fmap].
      by rewrite <- app_assoc.
    + apply (IH w Hw Hns).
Qed.

(** X4. A loop of visits over calls that all invoke a member returns
    normally and reports exactly the alias calls among them, one diagnostic
    each, in the order of the visits. *)
Theorem visit_calls_reports_alias_calls w (nodes : list node) :
  reachable w →
  Forall (λ n, is_Some (invoked_member_name n)) nodes →
  outcome (visit_calls nodes) w = Returned tt
  ∧ emitted (visit_calls nodes) w
    = (make_diagnostic alias_definition <$> List.filter is_alias_call nodes).
Proof.
  intros Hw Hns. apply reachable_ALIASES in Hw.
  destruct (visit_calls_members nodes w Hw Hns) as (Ho & _ & Hm).
  split; [exact Ho|]. unfold emitted. rewrite Hm. apply drop_app_length.
Qed.

Lemma visit_calls_reports_alias_calls_witness :
  reachable loaded
  ∧ emitted (visit_calls [df_where; df_filter; df_groupby; df_groupBy]) loaded
    = [make_diagnostic alias_definition df_filter;
       make_diagnostic alias_definition df_groupBy].
Proof.
  split; [constructor|].
  apply (visit_calls_reports_alias_calls loaded
           [df_where; df_filter; df_groupby; df_groupBy]);
    [constructor | repeat constructor; by eexists].
Defined.



(** X6. The linter never holds a false report: in every reachable world each
    diagnostic was built from the rule's one message definition for the
    node it is attached to, and that node is an alias call. *)
Theorem reachable_reports_sound w :
  reachable w →
  Forall (λ d, d = make_diagnostic alias_definition (at_node d)
               ∧ is_alias_call (at_node d) = true)
         (linter_messages w).
Proof.
  induction 1 as [|w o Hw IH]; [constructor|].
  destruct o as [| |n]; try exact IH.
  cbn [run_op]. rewrite visit_call_appends.
  rewrite (emitted_is_alias_call n w (reachable_ALIASES w Hw)).
  apply Forall_app. split; [exact IH|].
  destruct (is_alias_call n) eqn:Hal; repeat constructor. exact Hal.
Qed.

Lemma reachable_reports_sound_witness :
  Forall (λ d, d = make_diagnostic alias_definition (at_node d)
               ∧ is_alias_call (at_node d) = true)
         (linter_messages
            (run_op (OpVisitCall df_filter) (run_op OpRegister loaded).2).2).
Proof.
  apply reachable_reports_sound. repeat constructor.
Defined.



(** What a visit does depends on the world through the alias table only. *)
Lemma visit_call_same_table n (u v : World) :
  mod_ALIASES u = mod_ALIASES v →
  outcome (visit_call n) u = outcome (visit_call n) v
  ∧ emitted (visit_call n) u = emitted (visit_call n) v.
Proof.
  intros Huv. unfold outcome, emitted.
  destruct (invoked_member_name n) as [a|] eqn:Hn.
  - rewrite !(visit_call_member n a _ Hn), Huv.
    destruct (contains _ _); cbn [fst snd];
      by rewrite ?emitted_nothing, ?emitted_reported.
  - rewrite !(visit_call_raise n _ Hn). cbn [fst snd].
    by rewrite !emitted_nothing.
Qed.

(** X8. [register] never raises and reports nothing; it adds the checker to
    the linter once more on every call (a second registration gives a
    second entry) and starts it with an empty stack; and a visit does after
    a registration what it would have done before it. *)
Theorem register_then_visit w n :
  outcome register w = Returned tt
  ∧ _function_stack (register w).2 = []
  ∧ linter_checkers (register w).2
    = linter_checkers w ++ ["pyspark-function-alias"]
  ∧ linter_checkers (register (register w).2).2
    = linter_checkers w ++ ["pyspark-function-alias"; "pyspark-function-alias"]
  ∧ linter_messages (register w).2 = linter_messages w
  ∧ outcome (visit_call n) (register w).2 = outcome (visit_call n) w
  ∧ emitted (visit_call n) (register w).2 = emitted (visit_call n) w.
Proof.
  repeat (split; [reflexivity|]).
  split.
  { transitivity ((linter_checkers w ++ [name]) ++ [name]); [reflexivity|].
    by rewrite <- app_assoc. }
  split; [reflexivity|].
  by apply visit_call_same_table.
Qed.

(** X9. One visit reports at most once, in any world and however deeply
    calls nest inside the receiver or the arguments; what it reports is
    attached to the visited call itself and carries that call's position. *)
Theorem visit_call_reports_visited_node_only w n :
  (length (emitted (visit_call n) w) ≤ 1)%nat
  ∧ Forall (λ d, at_node d = n
                 ∧ line d = lineno (pos n)
                 ∧ column d = col_offset (pos n)
                 ∧ end_line d = end_lineno (pos n)
                 ∧ end_column d = end_col_offset (pos n))
           (emitted (visit_call n) w).
Proof.
  destruct (emitted_cases n w) as [-> | ->]; cbn [length].
  - split; [lia | constructor].
  - split; [lia | by repeat constructor].
Qed.

(** X10. The check is by name only: two calls that invoke a member of the
    same name are both reported or both passed over, whatever their
    receivers, arguments and positions and whatever the table holds. *)
Theorem visit_call_by_name_only w n n' a :
  invoked_member_name n = Some a →
  invoked_member_name n' = Some a →
  outcome (visit_call n') w = outcome (visit_call n) w
  ∧ length (emitted (visit_call n') w) = length (emitted (visit_call n) w).
Proof.
  intros Hn Hn'. unfold outcome, emitted.
  rewrite (visit_call_member n a w Hn), (visit_call_member n' a w Hn').
  destruct (contains _ _); cbn [fst snd];
    by rewrite ?emitted_nothing, ?emitted_reported.
Qed.

Lemma visit_call_by_name_only_witness :
  let chained :=
    Call (Position 9 0 9 30)
         (Attribute (Position 9 0 9 24)
                    (Call (Position 9 0 9 17)
                          (Attribute (Position 9 0 9 15)
                                     (Name (Position 9 0 9 5) "spark")
                                     "read")
                          [])
                    "filter")
         [Const (Position 9 25 9 29) (LStr "x>1")] in
  invoked_member_name chained = Some "filter"
  ∧ length (emitted (visit_call chained) loaded)
    = length (emitted (visit_call df_filter) loaded).
Proof.
  intros chained. split; [reflexivity|].
  exact (proj2 (visit_call_by_name_only loaded df_filter chained "filter"
                  eq_refl eq_refl)).
Defined.

End AliasCheckerMore.

(** * The tests of the unique-return checker *)

#[local] Set Warnings "-clear-no-such-hyp".

